(** * A bounded blocking FIFO queue (src/lab.c)

    Shallow embedding of the circular buffer behind [queue_t] and of the
    critical sections of [queue_init], [enqueue], [dequeue],
    [queue_shutdown], [queue_destroy], [is_empty] and [is_shutdown].

    Every function of lab.c takes the single mutex of the queue around
    everything it reads or writes, and [pthread_cond_wait] gives the mutex
    back atomically while the caller sleeps.  A call is therefore modelled
    as one atomic transition of the struct: either it has to wait
    ([Blocked], the struct is untouched and the loop condition is evaluated
    again on the state found at wake-up), or it runs its critical section
    to the end ([Returned]).  The condition-variable calls made on the way
    are recorded as a list of events. *)

From stdpp Require Import base list.
From Stdlib Require Import ZArith Lia.

Open Scope Z_scope.

(** ** C data *)

(** [void *]: an address, [NULL] being address 0. *)
Definition ptr := Z.
Definition NULL : ptr := 0.

(** [int] is 32 bits wide; arithmetic on it is written with its wrap-around. *)
Definition INT_MIN : Z := - 2 ^ 31.
Definition INT_MAX : Z := 2 ^ 31 - 1.

Definition int_wrap (z : Z) : Z := (z + 2 ^ 31) mod 2 ^ 32 - 2 ^ 31.
Definition int_add (a b : Z) : Z := int_wrap (a + b).
Definition int_sub (a b : Z) : Z := int_wrap (a - b).
(** C's [%] truncates towards zero: it is [Z.rem], not [Z.modulo]. *)
Definition int_rem (a b : Z) : Z := Z.rem a b.

(** struct queue, without its mutex and condition variables. *)
Record queue : Type := mkQueue {
  buffer : list ptr;
  capacity : Z;
  size : Z;
  front : Z;
  rear : Z;
  is_shutdown_flag : bool
}.

(** [queue_t] is a pointer to the struct: [None] is the NULL handle, [Some s]
    a handle whose pointee currently holds [s]. *)
Definition queue_t : Type := option queue.

(** The two condition variables and what a call does to them and to the
    allocator. *)
Inductive cond : Type := not_empty | not_full.

Inductive event : Type :=
| Signal (c : cond)
| Broadcast (c : cond)
| DestroySync
| FreeBuffer
| FreeQueue.

(** Outcome of a call.  [Undefined] is an access to [buffer] outside the
    [capacity] slots that were allocated, which C leaves undefined. *)
Inductive result (A : Type) : Type :=
| Blocked
| Undefined
| Returned (q' : queue_t) (v : A) (evs : list event).

Arguments Blocked {A}.
Arguments Undefined {A}.
Arguments Returned {A} q' v evs.

(** ** queue_init *)

(** What the two [malloc] calls answer: whether the struct was obtained, and
    for the buffer either failure or the (arbitrary) words found in the fresh
    block, slot by slot.  A block that is obtained has [capacity] slots: the
    byte count [capacity * sizeof(void * )] is taken in a 64-bit [size_t],
    where it cannot wrap for an [int] capacity. *)
Record allocator : Type := mkAllocator {
  alloc_struct : bool;
  alloc_buffer : option (nat -> ptr)
}.

Definition fresh_block (garbage : nat -> ptr) (capacity : Z) : list ptr :=
  map garbage (seq 0 (Z.to_nat capacity)).

Definition queue_init (m : allocator) (capacity : Z) : queue_t :=
  if capacity <=? 0 then None
  else if negb (alloc_struct m) then None
  else match alloc_buffer m with
       | None => None
       | Some garbage =>
           Some {| buffer := fresh_block garbage capacity;
                   capacity := capacity;
                   size := 0;
                   front := 0;
                   rear := -1;
                   is_shutdown_flag := false |}
       end.

(** ** Buffer accesses *)

Definition in_bounds (s : queue) (i : Z) : bool :=
  (0 <=? i) && (i <? Z.of_nat (length (buffer s))).

Definition buffer_get (s : queue) (i : Z) : ptr :=
  buffer s !!! Z.to_nat i.

Definition buffer_set (s : queue) (i : Z) (data : ptr) : list ptr :=
  <[Z.to_nat i := data]> (buffer s).

(** ** enqueue *)

Definition enqueue (q : queue_t) (data : ptr) : result unit :=
  match q with
  | None => Returned None tt []
  | Some s =>
      if (size s =? capacity s) && negb (is_shutdown_flag s) then Blocked
      else if is_shutdown_flag s then Returned (Some s) tt []
      else
        let rear' := int_rem (int_add (rear s) 1) (capacity s) in
        if in_bounds s rear' then
          Returned (Some {| buffer := buffer_set s rear' data;
                            capacity := capacity s;
                            size := int_add (size s) 1;
                            front := front s;
                            rear := rear';
                            is_shutdown_flag := is_shutdown_flag s |})
                   tt [Signal not_empty]
        else Undefined
  end.

(** ** dequeue *)

Definition dequeue (q : queue_t) : result ptr :=
  match q with
  | None => Returned None NULL []
  | Some s =>
      if (size s =? 0) && negb (is_shutdown_flag s) then Blocked
      else if size s =? 0 then Returned (Some s) NULL []
      else if in_bounds s (front s) then
        let data := buffer_get s (front s) in
        Returned (Some {| buffer := buffer s;
                          capacity := capacity s;
                          size := int_sub (size s) 1;
                          front := int_rem (int_add (front s) 1) (capacity s);
                          rear := rear s;
                          is_shutdown_flag := is_shutdown_flag s |})
                 data [Signal not_full]
      else Undefined
  end.

(** ** queue_shutdown, queue_destroy *)

Definition set_shutdown (s : queue) : queue :=
  {| buffer := buffer s;
     capacity := capacity s;
     size := size s;
     front := front s;
     rear := rear s;
     is_shutdown_flag := true |}.

Definition queue_shutdown (q : queue_t) : result unit :=
  match q with
  | None => Returned None tt []
  | Some s =>
      Returned (Some (set_shutdown s)) tt
               [Broadcast not_empty; Broadcast not_full]
  end.

(** After [FreeBuffer] and [FreeQueue] the pointee is gone; the state in the
    result is the last one the struct held. *)
Definition queue_destroy (q : queue_t) : result unit :=
  match q with
  | None => Returned None tt []
  | Some s =>
      Returned (Some (set_shutdown s)) tt
               [Broadcast not_empty; Broadcast not_full;
                DestroySync; FreeBuffer; FreeQueue]
  end.

(** ** is_empty, is_shutdown *)

Definition is_empty (q : queue_t) : bool :=
  match q with
  | None => true
  | Some s => size s =? 0
  end.

Definition is_shutdown (q : queue_t) : bool :=
  match q with
  | None => true
  | Some s => is_shutdown_flag s
  end.

(** ** The queue as a state machine *)

(** The calls a thread can make on a live queue.  [queue_destroy] is left
    out: it releases the struct, and nothing may follow it. *)
Inductive op : Type :=
| Enqueue (data : ptr)
| Dequeue
| Shutdown
| IsEmpty
| IsShutdown.

Inductive retval : Type :=
| RUnit
| RPtr (p : ptr)
| RBool (b : bool).

Definition with_value {A : Type} (f : A -> retval) (r : result A) : result retval :=
  match r with
  | Blocked => Blocked
  | Undefined => Undefined
  | Returned q' v evs => Returned q' (f v) evs
  end.

Definition step (q : queue_t) (o : op) : result retval :=
  match o with
  | Enqueue data => with_value (fun _ => RUnit) (enqueue q data)
  | Dequeue => with_value RPtr (dequeue q)
  | Shutdown => with_value (fun _ => RUnit) (queue_shutdown q)
  | IsEmpty => Returned q (RBool (is_empty q)) []
  | IsShutdown => Returned q (RBool (is_shutdown q)) []
  end.

(** The struct after a call: a call that waits leaves it as it was.  So does,
    here, a call whose behaviour is undefined; no such call exists on a
    reachable struct ([step_defined], [reachable_wf]). *)
Definition next (s : queue) (r : result retval) : queue :=
  match r with
  | Returned (Some s') _ _ => s'
  | _ => s
  end.

Fixpoint exec (s : queue) (ops : list op) : queue :=
  match ops with
  | [] => s
  | o :: ops' => exec (next s (step (Some s) o)) ops'
  end.

Definition int_range (z : Z) : Prop := INT_MIN <= z <= INT_MAX.

Inductive reachable : queue -> Prop :=
| reach_init m cap s :
    int_range cap -> queue_init m cap = Some s -> reachable s
| reach_step s o s' v evs :
    reachable s -> step (Some s) o = Returned (Some s') v evs -> reachable s'.

(** ** Abstraction: the items held, oldest first *)

Definition slot (s : queue) (i : nat) : ptr :=
  buffer_get s ((front s + Z.of_nat i) mod capacity s).

Definition contents (s : queue) : list ptr :=
  map (slot s) (seq 0 (Z.to_nat (size s))).

(** Representation invariant of the struct.  [rear] is the slot of the newest
    item, and is -1 until the first insertion. *)
Record wf (s : queue) : Prop := mkWf {
  wf_cap : 0 < capacity s <= INT_MAX;
  wf_len : Z.of_nat (length (buffer s)) = capacity s;
  wf_size : 0 <= size s <= capacity s;
  wf_front : 0 <= front s < capacity s;
  wf_rear : -1 <= rear s < capacity s;
  wf_ring : (rear s + 1) mod capacity s = (front s + size s) mod capacity s;
  wf_fresh : rear s = -1 -> size s = 0
}.

(** Runs of calls used by the statements below. *)

(** [enqueue_all s es]: enqueue the items of [es] in turn, each one actually
    inserted (the call neither waits nor finds the queue shut down). *)
Fixpoint enqueue_all (s : queue) (es : list ptr) : option queue :=
  match es with
  | [] => Some s
  | e :: es' =>
      if is_shutdown_flag s then None
      else match enqueue (Some s) e with
           | Returned (Some s') _ _ => enqueue_all s' es'
           | _ => None
           end
  end.

(** [dequeue_n n s]: [n] calls of [dequeue], none of which waits; the values
    returned, in order, and the struct left behind. *)
Fixpoint dequeue_n (n : nat) (s : queue) : option (list ptr * queue) :=
  match n with
  | O => Some ([], s)
  | S n' =>
      match dequeue (Some s) with
      | Returned (Some s') v _ =>
          match dequeue_n n' s' with
          | Some (vs, s'') => Some (v :: vs, s'')
          | None => None
          end
      | _ => None
      end
  end.

(** ** A small run, used to exercise the statements

    A queue of three slots whose fresh block holds the word 7 everywhere,
    and the structs it goes through while 10, 20 and 30 are enqueued. *)

Definition demo_alloc : allocator :=
  {| alloc_struct := true; alloc_buffer := Some (fun _ => 7) |}.

Definition demo_fresh : queue :=
  {| buffer := [7; 7; 7]; capacity := 3; size := 0;
     front := 0; rear := -1; is_shutdown_flag := false |}.

Definition demo_one : queue :=
  {| buffer := [10; 7; 7]; capacity := 3; size := 1;
     front := 0; rear := 0; is_shutdown_flag := false |}.

Definition demo_two : queue :=
  {| buffer := [10; 20; 7]; capacity := 3; size := 2;
     front := 0; rear := 1; is_shutdown_flag := false |}.

Definition demo_full : queue :=
  {| buffer := [10; 20; 30]; capacity := 3; size := 3;
     front := 0; rear := 2; is_shutdown_flag := false |}.

(** The tail of the data model: the index where the next inserted item
    lands.  [enqueue] computes it as [(q->rear + 1) % q->capacity] and writes
    the item there; the struct stores [rear], the slot written last. *)
Definition tail (s : queue) : Z :=
  int_rem (int_add (rear s) 1) (capacity s).

(** ** What a caller sees of a run *)

(** What a call lets its caller observe: it waits, or it comes back with a
    value after the given condition-variable calls.  Undefined behaviour has
    no observation. *)
Inductive outcome : Type :=
| Waits
| Answers (v : retval) (evs : list event).

Definition observe (r : result retval) : option outcome :=
  match r with
  | Blocked => Some Waits
  | Undefined => None
  | Returned _ v evs => Some (Answers v evs)
  end.

(** The observations of the calls [ops] made one after the other. *)
Fixpoint trace (s : queue) (ops : list op) : list (option outcome) :=
  match ops with
  | [] => []
  | o :: ops' =>
      observe (step (Some s) o) :: trace (next s (step (Some s) o)) ops'
  end.

(** The item a call puts into the buffer, if it does: [enqueue] reaches its
    write when it has returned and the queue was not shut down. *)
Definition inserted (s : queue) (o : op) : list ptr :=
  match o, step (Some s) o with
  | Enqueue data, Returned _ _ _ => if is_shutdown_flag s then [] else [data]
  | _, _ => []
  end.

(** The item a call takes out of the buffer, if it does: [dequeue] reaches
    its read when it has returned and [size] was not 0. *)
Definition removed (s : queue) (o : op) : list ptr :=
  match o, step (Some s) o with
  | Dequeue, Returned _ (RPtr v) _ => if size s =? 0 then [] else [v]
  | _, _ => []
  end.

(** All the items put in, and all the items handed out, along a run. *)
Fixpoint accepted (s : queue) (ops : list op) : list ptr :=
  match ops with
  | [] => []
  | o :: ops' => inserted s o ++ accepted (next s (step (Some s) o)) ops'
  end.

Fixpoint delivered (s : queue) (ops : list op) : list ptr :=
  match ops with
  | [] => []
  | o :: ops' => removed s o ++ delivered (next s (step (Some s) o)) ops'
  end.

(** ** A list model of the queue

    The queue as a plain list of items, oldest first, with a bound and a
    shutdown flag: the behaviour the ring buffer is compared with. *)
Record model : Type := mkModel {
  m_items : list ptr;
  m_capacity : Z;
  m_shutdown : bool
}.

Definition model_step (a : model) (o : op) : model * outcome :=
  match o with
  | Enqueue data =>
      if m_shutdown a then (a, Answers RUnit [])
      else if Z.of_nat (length (m_items a)) =? m_capacity a then (a, Waits)
      else ({| m_items := m_items a ++ [data];
               m_capacity := m_capacity a;
               m_shutdown := m_shutdown a |},
            Answers RUnit [Signal not_empty])
  | Dequeue =>
      match m_items a with
      | [] => if m_shutdown a then (a, Answers (RPtr NULL) []) else (a, Waits)
      | x :: rest =>
          ({| m_items := rest;
              m_capacity := m_capacity a;
              m_shutdown := m_shutdown a |},
           Answers (RPtr x) [Signal not_full])
      end
  | Shutdown =>
      ({| m_items := m_items a;
          m_capacity := m_capacity a;
          m_shutdown := true |},
       Answers RUnit [Broadcast not_empty; Broadcast not_full])
  | IsEmpty =>
      (a, Answers (RBool (Nat.eqb (length (m_items a)) 0)) [])
  | IsShutdown => (a, Answers (RBool (m_shutdown a)) [])
  end.

Fixpoint model_trace (a : model) (ops : list op) : list outcome :=
  match ops with
  | [] => []
  | o :: ops' =>
      snd (model_step a o) :: model_trace (fst (model_step a o)) ops'
  end.

(** The list model a struct stands for. *)
Definition abstract (s : queue) : model :=
  {| m_items := contents s;
     m_capacity := capacity s;
     m_shutdown := is_shutdown_flag s |}.

(** When a call has to wait: the queue is open, and full for an enqueue or
    empty for a dequeue. *)
Definition must_wait (s : queue) (o : op) : Prop :=
  is_shutdown_flag s = false /\
  match o with
  | Enqueue _ => size s = capacity s
  | Dequeue => size s = 0
  | _ => False
  end.

(** * Proofs *)

Arguments enqueue : simpl never.
Arguments dequeue : simpl never.
Arguments queue_shutdown : simpl never.

(** ** Arithmetic on [int] *)

Lemma int_wrap_id z : int_range z -> int_wrap z = z.
Proof.
  unfold int_range, INT_MIN, INT_MAX, int_wrap. intros H.
  rewrite Z.mod_small; lia.
Qed.

Lemma int_rem_mod a b : 0 <= a -> 0 < b -> int_rem a b = a mod b.
Proof. intros. unfold int_rem. apply Z.rem_mod_nonneg; lia. Qed.

Lemma mod_apart a b c : 0 < c -> 0 < b - a < c -> a mod c <> b mod c.
Proof.
  intros Hc Hab Heq.
  pose proof (Z.div_mod a c ltac:(lia)) as Ha.
  pose proof (Z.div_mod b c ltac:(lia)) as Hb.
  set (k := b / c - a / c).
  assert (b - a = c * k) as Hk by (unfold k; lia).
  assert (k <= 0 \/ 1 <= k) as [Hneg|Hpos] by lia; nia.
Qed.

(** An index stepped circularly, as both [enqueue] and [dequeue] do. *)
Lemma succ_mod a c :
  0 < c <= INT_MAX -> -1 <= a < c -> int_rem (int_add a 1) c = (a + 1) mod c.
Proof.
  intros Hc Ha. unfold int_add.
  rewrite int_wrap_id by (unfold int_range, INT_MIN, INT_MAX in *; lia).
  apply int_rem_mod; lia.
Qed.

(** ** The representation invariant *)

Lemma fresh_block_length g cap : 0 <= cap -> Z.of_nat (length (fresh_block g cap)) = cap.
Proof. intros. unfold fresh_block. rewrite length_map, length_seq. lia. Qed.

Lemma queue_init_wf m cap s :
  int_range cap -> queue_init m cap = Some s -> wf s.
Proof.
  unfold queue_init, int_range. intros Hr H.
  destruct (Z.leb_spec cap 0); [discriminate|].
  destruct (alloc_struct m); [|discriminate].
  destruct (alloc_buffer m) as [g|]; [|discriminate].
  injection H as <-. split; simpl; try lia.
  - apply fresh_block_length; lia.
  - rewrite Z.mod_0_l by lia. rewrite Z.mod_0_l; lia.
Qed.

Lemma queue_init_fresh m cap s :
  queue_init m cap = Some s ->
  0 < cap /\ capacity s = cap /\ size s = 0 /\ front s = 0 /\ rear s = -1 /\
  is_shutdown_flag s = false.
Proof.
  unfold queue_init. destruct (Z.leb_spec cap 0); [discriminate|].
  destruct (alloc_struct m); [|discriminate].
  destruct (alloc_buffer m); [|discriminate].
  intros [= <-]. simpl. auto 7.
Qed.

Lemma wf_in_bounds s i : wf s -> 0 <= i < capacity s -> in_bounds s i = true.
Proof.
  intros [] Hi. unfold in_bounds.
  apply andb_true_intro. split; [apply Z.leb_le | apply Z.ltb_lt]; lia.
Qed.

(** The struct [enqueue] leaves when it inserts. *)
Definition pushed (s : queue) (data : ptr) : queue :=
  let rear' := (front s + size s) mod capacity s in
  {| buffer := buffer_set s rear' data;
     capacity := capacity s;
     size := size s + 1;
     front := front s;
     rear := rear';
     is_shutdown_flag := is_shutdown_flag s |}.

(** The struct [dequeue] leaves when it removes. *)
Definition popped (s : queue) : queue :=
  {| buffer := buffer s;
     capacity := capacity s;
     size := size s - 1;
     front := (front s + 1) mod capacity s;
     rear := rear s;
     is_shutdown_flag := is_shutdown_flag s |}.

Lemma enqueue_inserts s data :
  wf s -> size s < capacity s -> is_shutdown_flag s = false ->
  enqueue (Some s) data = Returned (Some (pushed s data)) tt [Signal not_empty].
Proof.
  intros Hwf Hsz Hfl. pose proof Hwf as [Hc Hl Hs Hf Hr Hring Hfresh].
  unfold enqueue. rewrite Hfl.
  destruct (Z.eqb_spec (size s) (capacity s)); [lia|]. simpl.
  rewrite succ_mod by lia. rewrite Hring.
  rewrite wf_in_bounds by (auto; apply Z.mod_pos_bound; lia).
  unfold pushed, int_add.
  rewrite int_wrap_id by (unfold int_range, INT_MIN, INT_MAX in *; lia).
  rewrite Hfl. reflexivity.
Qed.

Lemma enqueue_full_blocks s data :
  size s = capacity s -> is_shutdown_flag s = false ->
  enqueue (Some s) data = Blocked.
Proof.
  intros Hsz Hfl. unfold enqueue. rewrite Hfl, Hsz, Z.eqb_refl. reflexivity.
Qed.

Lemma enqueue_shutdown_drops s data :
  is_shutdown_flag s = true -> enqueue (Some s) data = Returned (Some s) tt [].
Proof.
  intros Hfl. unfold enqueue. rewrite Hfl, andb_false_r. reflexivity.
Qed.

Lemma dequeue_removes s :
  wf s -> 0 < size s ->
  dequeue (Some s) =
  Returned (Some (popped s)) (buffer_get s (front s)) [Signal not_full].
Proof.
  intros Hwf Hsz. pose proof Hwf as [Hc Hl Hs Hf Hr Hring Hfresh].
  unfold dequeue.
  destruct (Z.eqb_spec (size s) 0); [lia|]. simpl.
  rewrite wf_in_bounds by auto.
  rewrite succ_mod by lia.
  unfold popped, int_sub.
  rewrite int_wrap_id by (unfold int_range, INT_MIN, INT_MAX in *; lia).
  reflexivity.
Qed.

Lemma dequeue_empty_blocks s :
  size s = 0 -> is_shutdown_flag s = false -> dequeue (Some s) = Blocked.
Proof.
  intros Hsz Hfl. unfold dequeue. rewrite Hfl, Hsz. reflexivity.
Qed.

Lemma dequeue_drained s :
  size s = 0 -> is_shutdown_flag s = true ->
  dequeue (Some s) = Returned (Some s) NULL [].
Proof.
  intros Hsz Hfl. unfold dequeue. rewrite Hfl, Hsz. reflexivity.
Qed.

Lemma pushed_wf s data : wf s -> size s < capacity s -> wf (pushed s data).
Proof.
  intros [Hc Hl Hs Hf Hr Hring Hfresh] Hsz.
  pose proof (Z.mod_pos_bound (front s + size s) (capacity s) ltac:(lia)).
  split; simpl; try lia.
  - unfold buffer_set. rewrite length_insert. exact Hl.
  - rewrite Z.add_mod_idemp_l by lia. f_equal. lia.
Qed.

Lemma popped_wf s : wf s -> 0 < size s -> wf (popped s).
Proof.
  intros [Hc Hl Hs Hf Hr Hring Hfresh] Hsz.
  pose proof (Z.mod_pos_bound (front s + 1) (capacity s) ltac:(lia)).
  split; simpl; try lia.
  rewrite Hring. rewrite Z.add_mod_idemp_l by lia. f_equal. lia.
Qed.

Lemma set_shutdown_wf s : wf s -> wf (set_shutdown s).
Proof. intros []. split; simpl; assumption. Qed.

(** Case analysis of a call on a well-formed struct: what it can answer. *)
Lemma enqueue_cases s data :
  wf s ->
  (size s = capacity s /\ is_shutdown_flag s = false /\
   enqueue (Some s) data = Blocked) \/
  (is_shutdown_flag s = true /\
   enqueue (Some s) data = Returned (Some s) tt []) \/
  (size s < capacity s /\ is_shutdown_flag s = false /\
   enqueue (Some s) data = Returned (Some (pushed s data)) tt [Signal not_empty]).
Proof.
  intros Hwf. destruct (is_shutdown_flag s) eqn:Hfl.
  - right. left. auto using enqueue_shutdown_drops.
  - destruct (Z.eq_dec (size s) (capacity s)).
    + left. auto using enqueue_full_blocks.
    + right. right. pose proof (wf_size s Hwf).
      split; [lia|]. split; [done|]. apply enqueue_inserts; auto. lia.
Qed.

Lemma dequeue_cases s :
  wf s ->
  (size s = 0 /\ is_shutdown_flag s = false /\ dequeue (Some s) = Blocked) \/
  (size s = 0 /\ is_shutdown_flag s = true /\
   dequeue (Some s) = Returned (Some s) NULL []) \/
  (0 < size s /\
   dequeue (Some s) =
   Returned (Some (popped s)) (buffer_get s (front s)) [Signal not_full]).
Proof.
  intros Hwf. pose proof (wf_size s Hwf).
  destruct (Z.eq_dec (size s) 0).
  - destruct (is_shutdown_flag s) eqn:Hfl.
    + right. left. auto using dequeue_drained.
    + left. auto using dequeue_empty_blocks.
  - right. right. split; [lia|]. apply dequeue_removes; auto. lia.
Qed.

Lemma step_wf s o s' v evs :
  wf s -> step (Some s) o = Returned (Some s') v evs -> wf s'.
Proof.
  intros Hwf. destruct o as [data| | | |]; unfold step.
  - destruct (enqueue_cases s data Hwf) as [(_ & _ & ->)|[(_ & ->)|(? & _ & ->)]];
      simpl; intros [=]; subst; auto using pushed_wf.
  - destruct (dequeue_cases s Hwf) as [(_ & _ & ->)|[(_ & _ & ->)|(? & ->)]];
      simpl; intros [=]; subst; auto using popped_wf.
  - intros [=]; subst. auto using set_shutdown_wf.
  - intros [=]; subst; auto.
  - intros [=]; subst; auto.
Qed.

Lemma reachable_wf s : reachable s -> wf s.
Proof.
  induction 1 as [m cap s Hr Hi | s o s' v evs _ IH Hstep].
  - eapply queue_init_wf; eauto.
  - eapply step_wf; eauto.
Qed.

Lemma step_defined s o : wf s -> step (Some s) o <> Undefined.
Proof.
  intros Hwf. destruct o as [data| | | |]; unfold step; try discriminate.
  - destruct (enqueue_cases s data Hwf) as [(_ & _ & ->)|[(_ & ->)|(_ & _ & ->)]];
      discriminate.
  - destruct (dequeue_cases s Hwf) as [(_ & _ & ->)|[(_ & _ & ->)|(_ & ->)]];
      discriminate.
Qed.

Lemma next_reachable s o : reachable s -> reachable (next s (step (Some s) o)).
Proof.
  intros Hr. destruct (step (Some s) o) as [| |[s'|] v evs] eqn:Hstep; simpl; auto.
  eapply reach_step; eauto.
Qed.

Lemma exec_reachable ops : forall s, reachable s -> reachable (exec s ops).
Proof.
  induction ops as [|o ops IH]; simpl; intros s Hr; auto using next_reachable.
Qed.

(** ** The items held *)

Lemma contents_length s : length (contents s) = Z.to_nat (size s).
Proof. unfold contents. rewrite length_map, length_seq. reflexivity. Qed.

Lemma contents_empty s : size s = 0 -> contents s = [].
Proof. intros H. unfold contents. rewrite H. reflexivity. Qed.

Lemma contents_set_shutdown s : contents (set_shutdown s) = contents s.
Proof. reflexivity. Qed.

Lemma contents_pushed s data :
  wf s -> size s < capacity s -> contents (pushed s data) = contents s ++ [data].
Proof.
  intros [Hc Hl Hs Hf Hr Hring Hfresh] Hsz. unfold contents. simpl.
  replace (Z.to_nat (size s + 1)) with (S (Z.to_nat (size s))) by lia.
  rewrite seq_S, map_app. simpl.
  pose proof (Z.mod_pos_bound (front s + size s) (capacity s) ltac:(lia)) as Hb.
  f_equal.
  - apply map_ext_in. intros i Hi. apply in_seq in Hi.
    unfold slot, buffer_get, buffer_set. simpl.
    apply list_lookup_total_insert_ne.
    pose proof (Z.mod_pos_bound (front s + Z.of_nat i) (capacity s) ltac:(lia)).
    intros Heq. apply Z2Nat.inj in Heq; try lia.
    symmetry in Heq. revert Heq. apply mod_apart; lia.
  - f_equal. unfold slot, buffer_get, buffer_set. simpl.
    rewrite Z2Nat.id by lia.
    apply list_lookup_total_insert_eq. lia.
Qed.

Lemma contents_popped s :
  wf s -> 0 < size s ->
  contents s = buffer_get s (front s) :: contents (popped s).
Proof.
  intros [Hc Hl Hs Hf Hr Hring Hfresh] Hsz. unfold contents. simpl.
  replace (Z.to_nat (size s)) with (S (Z.to_nat (size s - 1))) by lia.
  simpl. f_equal.
  - unfold slot. rewrite Nat2Z.inj_0, Z.add_0_r, Z.mod_small by lia. reflexivity.
  - rewrite <- seq_shift, map_map. apply map_ext. intros i.
    unfold slot, buffer_get. simpl.
    rewrite Z.add_mod_idemp_l by lia. do 3 f_equal. lia.
Qed.

Lemma enqueue_all_spec es : forall s s',
  wf s -> enqueue_all s es = Some s' ->
  wf s' /\ contents s' = contents s ++ es /\
  is_shutdown_flag s' = is_shutdown_flag s /\ capacity s' = capacity s.
Proof.
  induction es as [|e es IH]; simpl; intros s s' Hwf H.
  - injection H as <-. rewrite app_nil_r. auto.
  - destruct (is_shutdown_flag s) eqn:Hfl; [discriminate|].
    destruct (enqueue_cases s e Hwf) as [(_ & _ & He)|[(? & _)|(Hsz & _ & He)]];
      [rewrite He in H; discriminate | congruence |].
    rewrite He in H. apply IH in H; [|auto using pushed_wf].
    destruct H as (Hwf' & Hc & Hf & Hcap). split; [done|].
    rewrite Hc, contents_pushed, <- app_assoc by done.
    simpl in *. rewrite Hf, Hcap. auto.
Qed.

(** As long as there is room and the queue is open, every enqueue inserts. *)
Lemma enqueue_all_total es : forall s,
  wf s -> is_shutdown_flag s = false ->
  size s + Z.of_nat (length es) <= capacity s ->
  exists s', enqueue_all s es = Some s'.
Proof.
  induction es as [|e es IH]; simpl; intros s Hwf Hfl Hroom; [eauto|].
  rewrite Hfl, enqueue_inserts by (auto; lia).
  apply IH; [apply pushed_wf; auto; lia | exact Hfl | simpl; lia].
Qed.

Lemma dequeue_n_drains n : forall s,
  wf s -> Z.to_nat (size s) = n ->
  exists s', dequeue_n n s = Some (contents s, s') /\
             wf s' /\ size s' = 0 /\
             is_shutdown_flag s' = is_shutdown_flag s /\
             capacity s' = capacity s.
Proof.
  induction n as [|n IH]; simpl; intros s Hwf Hn.
  - pose proof (wf_size s Hwf). exists s.
    rewrite contents_empty by lia.
    split; [done|]. split; [done|]. split; [lia|]. auto.
  - rewrite dequeue_removes by (auto; lia).
    destruct (IH (popped s)) as (s' & Hd & Hwf' & Hsz & Hfl & Hcap);
      [apply popped_wf; auto; lia | simpl; lia |].
    exists s'. rewrite Hd, <- contents_popped by (auto; lia). auto.
Qed.

(** ** Runs of calls *)

Lemma exec_app ops1 : forall s ops2, exec s (ops1 ++ ops2) = exec (exec s ops1) ops2.
Proof. induction ops1 as [|o ops1 IH]; simpl; auto. Qed.

Lemma int_range_3 : int_range 3.
Proof. unfold int_range, INT_MIN, INT_MAX. lia. Qed.

Lemma demo_fresh_reachable : reachable demo_fresh.
Proof. apply (reach_init demo_alloc 3); [exact int_range_3 | reflexivity]. Qed.

Lemma demo_one_reachable : reachable demo_one.
Proof.
  apply (reach_step demo_fresh (Enqueue 10) demo_one RUnit [Signal not_empty]);
    [exact demo_fresh_reachable | reflexivity].
Qed.

Lemma demo_two_reachable : reachable demo_two.
Proof.
  apply (reach_step demo_one (Enqueue 20) demo_two RUnit [Signal not_empty]);
    [exact demo_one_reachable | reflexivity].
Qed.

(** * The properties of the specification *)

(** C1 (FIFO order).  Take any reachable queue and any items [es] that are
    enqueued one after the other, each call really inserting (no call waits,
    none finds the queue shut down).  Dequeuing afterwards returns first the
    items the queue already held and then exactly [es], in the order they
    were enqueued, nothing repeated and nothing lost, and leaves the queue
    empty.  On a queue that was empty the dequeues return exactly [es]. *)
Theorem fifo_order s es s1 :
  reachable s -> enqueue_all s es = Some s1 ->
  exists s2,
    dequeue_n (length (contents s ++ es)) s1 = Some (contents s ++ es, s2) /\
    size s2 = 0 /\
    (size s = 0 -> dequeue_n (length es) s1 = Some (es, s2)).
Proof.
  intros Hr He. apply reachable_wf in Hr.
  destruct (enqueue_all_spec es s s1 Hr He) as (Hwf1 & Hc & _ & _).
  destruct (dequeue_n_drains (length (contents s ++ es)) s1 Hwf1) as
    (s2 & Hd & _ & Hsz & _).
  { rewrite <- Hc. symmetry. apply contents_length. }
  rewrite Hc in Hd. exists s2. split; [exact Hd|]. split; [exact Hsz|].
  intros H0. rewrite (contents_empty s H0) in Hd. exact Hd.
Qed.

Lemma fifo_order_witness :
  exists s2,
    dequeue_n (length (contents demo_fresh ++ [10; 20; 30])) demo_full =
      Some (contents demo_fresh ++ [10; 20; 30], s2) /\
    size s2 = 0 /\
    (size demo_fresh = 0 -> dequeue_n (length [10; 20; 30]) demo_full =
                            Some ([10; 20; 30], s2)).
Proof.
  apply (fifo_order demo_fresh [10; 20; 30] demo_full).
  - apply (reach_init demo_alloc 3); [unfold int_range, INT_MIN, INT_MAX; lia|].
    reflexivity.
  - reflexivity.
Defined.

(** C2 (capacity bound).  After construction and any sequence of Enqueue,
    Dequeue, Shutdown, IsEmpty and IsShutdown calls, [0 <= size <= capacity].
    An enqueue on a full queue that is not shut down waits: it inserts
    nothing and the struct, [size] included, is as before. *)
Theorem capacity_bound m cap s0 ops :
  int_range cap -> queue_init m cap = Some s0 ->
  0 <= size (exec s0 ops) <= capacity (exec s0 ops) /\
  (forall data,
      size (exec s0 ops) = capacity (exec s0 ops) ->
      is_shutdown_flag (exec s0 ops) = false ->
      enqueue (Some (exec s0 ops)) data = Blocked /\
      exec (exec s0 ops) [Enqueue data] = exec s0 ops).
Proof.
  intros Hcap Hinit.
  assert (wf (exec s0 ops)) as Hwf.
  { apply reachable_wf, exec_reachable. eapply reach_init; eauto. }
  split; [apply (wf_size _ Hwf)|].
  intros data Hfull Hopen.
  pose proof (enqueue_full_blocks _ data Hfull Hopen) as Hb.
  split; [exact Hb|]. simpl. rewrite Hb. reflexivity.
Qed.

Lemma capacity_bound_witness :
  0 <= size (exec demo_fresh [Enqueue 10; Enqueue 20; Enqueue 30; Enqueue 40])
    <= capacity (exec demo_fresh [Enqueue 10; Enqueue 20; Enqueue 30; Enqueue 40]) /\
  (forall data,
      size (exec demo_fresh [Enqueue 10; Enqueue 20; Enqueue 30; Enqueue 40]) =
      capacity (exec demo_fresh [Enqueue 10; Enqueue 20; Enqueue 30; Enqueue 40]) ->
      is_shutdown_flag
        (exec demo_fresh [Enqueue 10; Enqueue 20; Enqueue 30; Enqueue 40]) = false ->
      enqueue (Some (exec demo_fresh [Enqueue 10; Enqueue 20; Enqueue 30; Enqueue 40]))
              data = Blocked /\
      exec (exec demo_fresh [Enqueue 10; Enqueue 20; Enqueue 30; Enqueue 40])
           [Enqueue data] =
      exec demo_fresh [Enqueue 10; Enqueue 20; Enqueue 30; Enqueue 40]).
Proof.
  apply (capacity_bound demo_alloc 3 demo_fresh
                        [Enqueue 10; Enqueue 20; Enqueue 30; Enqueue 40]).
  - unfold int_range, INT_MIN, INT_MAX; lia.
  - reflexivity.
Defined.

Lemma dequeue_n_drained n : forall s,
  size s = 0 -> is_shutdown_flag s = true ->
  dequeue_n n s = Some (replicate n NULL, s).
Proof.
  induction n as [|n IH]; simpl; intros s Hsz Hfl; [reflexivity|].
  rewrite dequeue_drained, IH by assumption. reflexivity.
Qed.

(** C3 (shutdown drains, then signals completion).  On a reachable queue of
    capacity 3 that holds exactly [a; b], after [queue_shutdown] the first
    dequeue returns [a], the second [b], the third the no-item result [NULL]
    without changing the struct, and so does every later dequeue. *)
Theorem shutdown_drains s a b :
  reachable s -> capacity s = 3 -> contents s = [a; b] ->
  exists s1 s2 s3,
    queue_shutdown (Some s) =
      Returned (Some s1) tt [Broadcast not_empty; Broadcast not_full] /\
    dequeue (Some s1) = Returned (Some s2) a [Signal not_full] /\
    dequeue (Some s2) = Returned (Some s3) b [Signal not_full] /\
    dequeue (Some s3) = Returned (Some s3) NULL [] /\
    (forall n, dequeue_n n s3 = Some (replicate n NULL, s3)).
Proof.
  intros Hr Hcap Hc. apply reachable_wf in Hr.
  assert (wf (set_shutdown s)) as Hwf1 by auto using set_shutdown_wf.
  assert (size (set_shutdown s) = 2) as Hsz1.
  { pose proof (contents_length s) as Hl. rewrite Hc in Hl. simpl in *.
    pose proof (wf_size s Hr). lia. }
  pose proof (contents_popped _ Hwf1 ltac:(lia)) as Hp1.
  rewrite contents_set_shutdown, Hc in Hp1. injection Hp1 as Ha Hp1.
  assert (wf (popped (set_shutdown s))) as Hwf2 by (apply popped_wf; auto; lia).
  assert (size (popped (set_shutdown s)) = 1) as Hsz2 by (simpl in *; lia).
  pose proof (contents_popped _ Hwf2 ltac:(lia)) as Hp2.
  rewrite <- Hp1 in Hp2. injection Hp2 as Hb _.
  exists (set_shutdown s), (popped (set_shutdown s)),
    (popped (popped (set_shutdown s))).
  split; [reflexivity|].
  split; [rewrite Ha; apply (dequeue_removes (set_shutdown s)); auto; lia|].
  split; [rewrite Hb; apply (dequeue_removes (popped (set_shutdown s)));
          auto; lia|].
  assert (size (popped (popped (set_shutdown s))) = 0) as Hsz3
      by (simpl in *; lia).
  split; [apply dequeue_drained; auto|].
  intros n. apply dequeue_n_drained; auto.
Qed.

Lemma shutdown_drains_witness :
  exists s1 s2 s3,
    queue_shutdown (Some demo_two) =
      Returned (Some s1) tt [Broadcast not_empty; Broadcast not_full] /\
    dequeue (Some s1) = Returned (Some s2) 10 [Signal not_full] /\
    dequeue (Some s2) = Returned (Some s3) 20 [Signal not_full] /\
    dequeue (Some s3) = Returned (Some s3) NULL [] /\
    (forall n, dequeue_n n s3 = Some (replicate n NULL, s3)).
Proof.
  apply (shutdown_drains demo_two 10 20).
  - exact demo_two_reachable.
  - reflexivity.
  - reflexivity.
Defined.

(** C4 (enqueue on a shut-down queue).  Whatever the struct holds, if its
    shutdown flag is set then [enqueue] returns at once, signals nobody and
    leaves the struct exactly as it was: same [size], [front], [rear],
    [capacity] and [buffer], hence the same items. *)
Theorem enqueue_on_shutdown_drops s data :
  is_shutdown_flag s = true ->
  exists s',
    enqueue (Some s) data = Returned (Some s') tt [] /\
    s' = s /\
    size s' = size s /\ front s' = front s /\ rear s' = rear s /\
    capacity s' = capacity s /\ buffer s' = buffer s /\
    contents s' = contents s.
Proof.
  intros Hfl. exists s. split; [|by repeat split].
  unfold enqueue. rewrite Hfl, andb_false_r. reflexivity.
Qed.

Lemma enqueue_on_shutdown_drops_witness :
  exists s',
    enqueue (Some (set_shutdown demo_two)) 30 = Returned (Some s') tt [] /\
    s' = set_shutdown demo_two /\
    size s' = size (set_shutdown demo_two) /\
    front s' = front (set_shutdown demo_two) /\
    rear s' = rear (set_shutdown demo_two) /\
    capacity s' = capacity (set_shutdown demo_two) /\
    buffer s' = buffer (set_shutdown demo_two) /\
    contents s' = contents (set_shutdown demo_two).
Proof.
  apply (enqueue_on_shutdown_drops (set_shutdown demo_two) 30). reflexivity.
Defined.

(** C5 (construction).  [queue_init] with a capacity that is zero or negative
    returns no queue, whatever the allocator would have answered.  Whenever it
    returns a queue, the capacity was positive and the queue has that
    capacity, [size = 0] and the shutdown flag clear; and with a positive
    capacity it does return one as soon as both allocations succeed. *)
Theorem queue_init_validates m cap :
  (cap <= 0 -> queue_init m cap = None) /\
  (forall s, queue_init m cap = Some s ->
             0 < cap /\ capacity s = cap /\ size s = 0 /\
             is_shutdown_flag s = false) /\
  (0 < cap -> alloc_struct m = true -> is_Some (alloc_buffer m) ->
   is_Some (queue_init m cap)).
Proof.
  unfold queue_init. destruct (Z.leb_spec cap 0) as [Hle|Hgt].
  - split; [reflexivity|]. split; [discriminate | lia].
  - split; [lia|]. split.
    + intros s. destruct (alloc_struct m); [|discriminate].
      destruct (alloc_buffer m); [|discriminate].
      intros [= <-]. simpl. auto.
    + intros _ -> [g ->]. simpl. eauto.
Qed.

Lemma queue_init_validates_witness :
  queue_init demo_alloc 0 = None /\
  queue_init demo_alloc (-5) = None /\
  (0 < 3 /\ capacity demo_fresh = 3 /\ size demo_fresh = 0 /\
   is_shutdown_flag demo_fresh = false) /\
  is_Some (queue_init demo_alloc 1).
Proof.
  split; [apply (proj1 (queue_init_validates demo_alloc 0)); lia|].
  split; [apply (proj1 (queue_init_validates demo_alloc (-5))); lia|].
  split.
  - apply (proj1 (proj2 (queue_init_validates demo_alloc 3)) demo_fresh).
    reflexivity.
  - apply (proj2 (proj2 (queue_init_validates demo_alloc 1)));
      [lia | reflexivity | simpl; eauto].
Defined.

(** ** The shutdown flag along a run *)

Lemma next_flag s o :
  is_shutdown_flag (next s (step (Some s) o)) =
  match o with Shutdown => true | _ => is_shutdown_flag s end.
Proof.
  destruct o as [data| | | |]; try reflexivity; unfold step.
  - unfold enqueue.
    destruct ((size s =? capacity s) && negb (is_shutdown_flag s));
      [reflexivity|].
    destruct (is_shutdown_flag s) eqn:Hfl; [simpl; exact Hfl|].
    destruct (in_bounds s _); simpl; auto.
  - unfold dequeue.
    destruct ((size s =? 0) && negb (is_shutdown_flag s)); [reflexivity|].
    destruct (size s =? 0); [reflexivity|].
    destruct (in_bounds s _); reflexivity.
Qed.

Lemma step_keeps_shutdown s o s' v evs :
  step (Some s) o = Returned (Some s') v evs ->
  is_shutdown_flag s = true -> is_shutdown_flag s' = true.
Proof.
  intros Hstep Hfl. pose proof (next_flag s o) as Hn.
  rewrite Hstep in Hn. simpl in Hn. rewrite Hn. destruct o; auto.
Qed.

Lemma exec_keeps_shutdown ops : forall s,
  is_shutdown_flag s = true -> is_shutdown_flag (exec s ops) = true.
Proof.
  induction ops as [|o ops IH]; simpl; intros s Hfl; [exact Hfl|].
  apply IH. rewrite next_flag. destruct o; auto.
Qed.

Lemma exec_without_shutdown ops : forall s,
  ~ In Shutdown ops -> is_shutdown_flag (exec s ops) = is_shutdown_flag s.
Proof.
  induction ops as [|o ops IH]; simpl; intros s Hno; [reflexivity|].
  rewrite IH by tauto. rewrite next_flag.
  destruct o; try reflexivity. tauto.
Qed.

(** C6 (monotonic shutdown).  No call turns a set shutdown flag back off.
    Along any run of calls on a freshly constructed queue, [is_shutdown]
    answers false as long as no [queue_shutdown] call has been made, and
    true at every point after the first one, whatever calls follow it. *)
Theorem shutdown_monotonic :
  (forall s o s' v evs,
      step (Some s) o = Returned (Some s') v evs ->
      is_shutdown_flag s = true -> is_shutdown_flag s' = true) /\
  (forall m cap s0 ops,
      int_range cap -> queue_init m cap = Some s0 ->
      ~ In Shutdown ops ->
      is_shutdown (Some (exec s0 ops)) = false) /\
  (forall m cap s0 before after,
      int_range cap -> queue_init m cap = Some s0 ->
      is_shutdown (Some (exec s0 (before ++ Shutdown :: after))) = true).
Proof.
  split; [exact step_keeps_shutdown|]. split.
  - intros m cap s0 ops _ Hinit Hno. unfold is_shutdown.
    rewrite exec_without_shutdown by exact Hno.
    apply (queue_init_fresh m cap s0 Hinit).
  - intros m cap s0 before after _ _. unfold is_shutdown.
    rewrite exec_app. cbn [exec]. apply exec_keeps_shutdown.
    rewrite next_flag. reflexivity.
Qed.

Lemma shutdown_monotonic_witness :
  is_shutdown_flag (popped (set_shutdown demo_two)) = true /\
  is_shutdown (Some (exec demo_fresh [Enqueue 10; IsShutdown; Dequeue])) = false /\
  is_shutdown
    (Some (exec demo_fresh
                ([Enqueue 10] ++ Shutdown :: [Dequeue; Enqueue 5; Dequeue]))) = true.
Proof.
  split; [|split].
  - apply (proj1 shutdown_monotonic (set_shutdown demo_two) Dequeue
                 (popped (set_shutdown demo_two)) (RPtr 10) [Signal not_full]);
      reflexivity.
  - apply (proj1 (proj2 shutdown_monotonic) demo_alloc 3 demo_fresh
                 [Enqueue 10; IsShutdown; Dequeue]);
      [unfold int_range, INT_MIN, INT_MAX; lia | reflexivity |].
    simpl. intros [H|[H|[H|[]]]]; discriminate H.
  - apply (proj2 (proj2 shutdown_monotonic) demo_alloc 3 demo_fresh [Enqueue 10]
                 [Dequeue; Enqueue 5; Dequeue]);
      [unfold int_range, INT_MIN, INT_MAX; lia | reflexivity].
Defined.

(** The stored field [rear] is the slot written last: it lies in
    [-1, capacity), is -1 on a queue never written, and is
    [(front + size - 1) mod capacity] as soon as the queue holds an item. *)
Lemma stored_rear s :
  reachable s ->
  -1 <= rear s < capacity s /\
  (0 < size s ->
   0 <= rear s /\ rear s = (front s + size s - 1) mod capacity s).
Proof.
  intros Hr. pose proof (reachable_wf s Hr) as [Hc Hl Hs Hf Hre Hring Hfresh].
  split; [exact Hre|]. intros Hsz. split; [lia|].
  rewrite <- Zminus_mod_idemp_l, <- Hring, Zminus_mod_idemp_l.
  replace (rear s + 1 - 1) with (rear s) by lia.
  symmetry. apply Z.mod_small. lia.
Qed.

Lemma tail_mod s : wf s -> tail s = (rear s + 1) mod capacity s.
Proof.
  intros Hwf. unfold tail. apply succ_mod; [apply (wf_cap s Hwf) | apply (wf_rear s Hwf)].
Qed.

Lemma tail_facts s :
  wf s ->
  0 <= front s < capacity s /\
  0 <= tail s < capacity s /\
  tail s = (front s + size s) mod capacity s.
Proof.
  intros Hwf. pose proof Hwf as [Hc Hl Hs Hf Hre Hring Hfresh].
  rewrite (tail_mod s Hwf). split; [exact Hf|].
  split; [apply Z.mod_pos_bound; lia | exact Hring].
Qed.

(** C7 (index invariant).  In every queue state reachable from
    construction, head ([front]) and tail, the index where the next inserted
    item lands, are integers in [0, capacity), and tail = (head + size) mod
    capacity; this holds whenever [size > 0], and for an empty queue as
    well.  An inserting enqueue writes its item at slot tail.  Every call
    that returns, each enqueue and each dequeue in particular, leaves a
    state in which the same relations hold. *)
Theorem tail_index_invariant s :
  reachable s ->
  0 <= front s < capacity s /\
  0 <= tail s < capacity s /\
  (0 < size s -> tail s = (front s + size s) mod capacity s) /\
  tail s = (front s + size s) mod capacity s /\
  (forall data,
      size s < capacity s -> is_shutdown_flag s = false ->
      exists s',
        enqueue (Some s) data = Returned (Some s') tt [Signal not_empty] /\
        buffer s' = <[Z.to_nat (tail s) := data]> (buffer s) /\
        buffer s' !!! Z.to_nat (tail s) = data) /\
  (forall o s' v evs,
      step (Some s) o = Returned (Some s') v evs ->
      0 <= front s' < capacity s' /\
      0 <= tail s' < capacity s' /\
      (0 < size s' -> tail s' = (front s' + size s') mod capacity s')).
Proof.
  intros Hr. pose proof (reachable_wf s Hr) as Hwf.
  destruct (tail_facts s Hwf) as (Hf & Ht & Heq).
  split; [exact Hf|]. split; [exact Ht|]. split; [intros _; exact Heq|].
  split; [exact Heq|]. split.
  - intros data Hsz Hfl. exists (pushed s data).
    split; [apply enqueue_inserts; auto|].
    cbn [pushed buffer]. unfold buffer_set. rewrite <- Heq.
    split; [reflexivity|].
    apply list_lookup_total_insert_eq.
    pose proof (wf_len s Hwf). lia.
  - intros o s' v evs Hstep.
    destruct (tail_facts s' (step_wf s o s' v evs Hwf Hstep)) as (Hf' & Ht' & Heq').
    split; [exact Hf'|]. split; [exact Ht'|]. intros _. exact Heq'.
Qed.

Lemma tail_index_invariant_witness :
  0 <= front demo_one < capacity demo_one /\
  0 <= tail demo_one < capacity demo_one /\
  (0 < size demo_one ->
   tail demo_one = (front demo_one + size demo_one) mod capacity demo_one) /\
  tail demo_one = (front demo_one + size demo_one) mod capacity demo_one /\
  (forall data,
      size demo_one < capacity demo_one -> is_shutdown_flag demo_one = false ->
      exists s',
        enqueue (Some demo_one) data = Returned (Some s') tt [Signal not_empty] /\
        buffer s' = <[Z.to_nat (tail demo_one) := data]> (buffer demo_one) /\
        buffer s' !!! Z.to_nat (tail demo_one) = data) /\
  (forall o s' v evs,
      step (Some demo_one) o = Returned (Some s') v evs ->
      0 <= front s' < capacity s' /\
      0 <= tail s' < capacity s' /\
      (0 < size s' -> tail s' = (front s' + size s') mod capacity s')).
Proof. apply (tail_index_invariant demo_one). exact demo_one_reachable. Defined.

(** C8 (shutdown frame and idempotence).  [queue_shutdown] on any struct
    sets the shutdown flag and touches nothing else: [capacity], [size],
    [front], [rear] and every slot of [buffer], hence the items held, are as
    before.  A second call leaves the struct as the first one left it. *)
Theorem shutdown_frame s :
  exists s',
    queue_shutdown (Some s) =
      Returned (Some s') tt [Broadcast not_empty; Broadcast not_full] /\
    is_shutdown_flag s' = true /\
    capacity s' = capacity s /\ size s' = size s /\
    front s' = front s /\ rear s' = rear s /\
    buffer s' = buffer s /\ contents s' = contents s /\
    queue_shutdown (Some s') =
      Returned (Some s') tt [Broadcast not_empty; Broadcast not_full].
Proof. exists (set_shutdown s). by repeat split. Qed.

(** C9 (NULL handle).  On the NULL handle [is_empty] and [is_shutdown]
    answer true, [dequeue] returns the no-item result [NULL], and [enqueue],
    [queue_shutdown] and [queue_destroy] return at once: no call waits,
    none reaches the buffer, none signals or frees anything. *)
Theorem null_handle_defaults data :
  is_empty None = true /\
  is_shutdown None = true /\
  dequeue None = Returned None NULL [] /\
  enqueue None data = Returned None tt [] /\
  queue_shutdown None = Returned None tt [] /\
  queue_destroy None = Returned None tt [].
Proof. by repeat split. Qed.

(** C10 (the no-item result is a legal item).  [NULL] can be enqueued like
    any other item: on a reachable, empty queue that is not shut down the
    call inserts it and the queue then holds exactly [[NULL]].  The dequeue
    that takes it out returns [NULL], the very value [dequeue] returns on an
    empty shut-down queue and on the NULL handle. *)
Theorem null_item_ambiguity s :
  reachable s -> size s = 0 -> is_shutdown_flag s = false ->
  exists s1 s2,
    enqueue (Some s) NULL = Returned (Some s1) tt [Signal not_empty] /\
    contents s1 = [NULL] /\ is_shutdown_flag s1 = false /\
    dequeue (Some s1) = Returned (Some s2) NULL [Signal not_full] /\
    (forall s', size s' = 0 -> is_shutdown_flag s' = true ->
                dequeue (Some s') = Returned (Some s') NULL []) /\
    dequeue None = Returned None NULL [].
Proof.
  intros Hr Hsz Hfl. apply reachable_wf in Hr.
  pose proof (wf_cap s Hr) as Hc.
  assert (wf (pushed s NULL)) as Hwf1 by (apply pushed_wf; auto; lia).
  assert (contents (pushed s NULL) = [NULL]) as Hc1.
  { rewrite contents_pushed, contents_empty by (auto; lia). reflexivity. }
  exists (pushed s NULL), (popped (pushed s NULL)).
  split; [apply enqueue_inserts; auto; lia|].
  split; [exact Hc1|]. split; [exact Hfl|].
  split; [|split; [exact dequeue_drained | reflexivity]].
  pose proof (contents_popped _ Hwf1 ltac:(simpl; lia)) as Hp.
  rewrite Hc1 in Hp. injection Hp as Hv _.
  rewrite (dequeue_removes (pushed s NULL)) by (auto; simpl; lia).
  f_equal. symmetry. exact Hv.
Qed.

Lemma null_item_ambiguity_witness :
  exists s1 s2,
    enqueue (Some demo_fresh) NULL = Returned (Some s1) tt [Signal not_empty] /\
    contents s1 = [NULL] /\ is_shutdown_flag s1 = false /\
    dequeue (Some s1) = Returned (Some s2) NULL [Signal not_full] /\
    (forall s', size s' = 0 -> is_shutdown_flag s' = true ->
                dequeue (Some s') = Returned (Some s') NULL []) /\
    dequeue None = Returned None NULL [].
Proof.
  apply (null_item_ambiguity demo_fresh);
    [exact demo_fresh_reachable | reflexivity | reflexivity].
Defined.

(** * Further properties of the code *)

(** ** Calls on a reachable struct *)

Lemma init_reachable m cap s0 :
  int_range cap -> queue_init m cap = Some s0 -> reachable s0.
Proof. intros. eapply reach_init; eauto. Qed.

Lemma contents_size s : wf s -> Z.of_nat (length (contents s)) = size s.
Proof. intros Hwf. rewrite contents_length. pose proof (wf_size s Hwf). lia. Qed.

(** The three ways a call on a well-formed struct can go, with the struct it
    leaves. *)
Lemma step_cases s o :
  wf s ->
  (must_wait s o /\ step (Some s) o = Blocked) \/
  (~ must_wait s o /\
   exists s' v evs, step (Some s) o = Returned (Some s') v evs).
Proof.
  intros Hwf. pose proof (wf_size s Hwf) as Hs. pose proof (wf_cap s Hwf) as Hc.
  destruct o as [data| | | |]; unfold step, must_wait.
  - destruct (enqueue_cases s data Hwf) as [(? & ? & ->)|[(? & ->)|(? & ? & ->)]].
    + left. auto.
    + right. split; [intros [? _]; congruence | simpl; eauto].
    + right. split; [intros [_ ?]; lia | simpl; eauto].
  - destruct (dequeue_cases s Hwf) as [(? & ? & ->)|[(? & ? & ->)|(? & ->)]].
    + left. auto.
    + right. split; [intros [? _]; congruence | simpl; eauto].
    + right. split; [intros [_ ?]; lia | simpl; eauto].
  - right. split; [tauto | unfold queue_shutdown; simpl; eauto].
  - right. split; [tauto | eauto].
  - right. split; [tauto | eauto].
Qed.

(** X1.  A call on a queue reached from construction never has undefined
    behaviour: it waits, exactly when the queue is open and full (enqueue) or
    open and empty (dequeue), and otherwise returns. *)
Theorem call_returns_or_waits s o :
  reachable s ->
  (must_wait s o /\ step (Some s) o = Blocked) \/
  (~ must_wait s o /\
   exists s' v evs, step (Some s) o = Returned (Some s') v evs).
Proof. intros Hr. apply step_cases, reachable_wf, Hr. Qed.

Lemma call_returns_or_waits_witness :
  (must_wait demo_two Dequeue /\ step (Some demo_two) Dequeue = Blocked) \/
  (~ must_wait demo_two Dequeue /\
   exists s' v evs, step (Some demo_two) Dequeue = Returned (Some s') v evs).
Proof. apply (call_returns_or_waits demo_two Dequeue). exact demo_two_reachable. Defined.

(** X2.  Shutdown releases every waiter.  If a call has to wait on some
    struct, the same call on the struct [queue_shutdown] leaves returns
    without changing it and without signalling: an enqueue drops its item, a
    dequeue returns [NULL]. *)
Theorem shutdown_releases_waiters s o s1 evs :
  step (Some s) o = Blocked ->
  queue_shutdown (Some s) = Returned (Some s1) tt evs ->
  exists v,
    step (Some s1) o = Returned (Some s1) v [] /\
    match o with
    | Enqueue _ => v = RUnit
    | Dequeue => v = RPtr NULL
    | _ => False
    end.
Proof.
  intros Hb Hs. unfold queue_shutdown in Hs. injection Hs as <- _.
  destruct o as [data| | | |]; unfold step in *; try discriminate.
  - exists RUnit. rewrite enqueue_shutdown_drops by reflexivity. auto.
  - exists (RPtr NULL). split; [|reflexivity].
    unfold dequeue in Hb.
    destruct (Z.eqb_spec (size s) 0) as [Hz|Hnz].
    + rewrite dequeue_drained by (auto; reflexivity). reflexivity.
    + simpl in Hb. destruct (in_bounds s (front s)); discriminate.
Qed.

Lemma shutdown_releases_waiters_witness :
  exists v,
    step (Some (set_shutdown demo_full)) (Enqueue 40) =
      Returned (Some (set_shutdown demo_full)) v [] /\ v = RUnit.
Proof.
  apply (shutdown_releases_waiters demo_full (Enqueue 40) (set_shutdown demo_full)
           [Broadcast not_empty; Broadcast not_full]); reflexivity.
Defined.

(** ** The ring buffer against the list model *)

Lemma step_simulation s o :
  wf s ->
  observe (step (Some s) o) = Some (snd (model_step (abstract s) o)) /\
  abstract (next s (step (Some s) o)) = fst (model_step (abstract s) o).
Proof.
  intros Hwf. pose proof (contents_size s Hwf) as Hlen.
  pose proof (wf_size s Hwf) as Hs.
  destruct o as [data| | | |]; unfold step, model_step, abstract;
    cbn [m_items m_capacity m_shutdown].
  - rewrite Hlen.
    destruct (enqueue_cases s data Hwf)
      as [(Hf & Hfl & ->)|[(Hfl & ->)|(Hf & Hfl & ->)]];
      cbn [with_value observe next]; rewrite ?Hfl.
    + rewrite Hf, Z.eqb_refl. cbn [fst snd]. rewrite ?Hfl. auto.
    + cbn [fst snd]. rewrite ?Hfl. auto.
    + destruct (Z.eqb_spec (size s) (capacity s)); [lia|].
      cbn [fst snd]. rewrite contents_pushed by auto.
      cbn [pushed capacity is_shutdown_flag]. rewrite ?Hfl. auto.
  - destruct (dequeue_cases s Hwf)
      as [(Hz & Hfl & ->)|[(Hz & Hfl & ->)|(Hp & ->)]];
      cbn [with_value observe next].
    + rewrite (contents_empty s Hz), ?Hfl. cbn [fst snd]. auto.
    + rewrite (contents_empty s Hz), ?Hfl. cbn [fst snd]. auto.
    + rewrite (contents_popped s Hwf Hp). cbn [fst snd]. auto.
  - unfold queue_shutdown. cbn [with_value observe next fst snd].
    rewrite contents_set_shutdown. auto.
  - cbn [observe next fst snd is_empty]. split; [|reflexivity].
    do 3 f_equal. rewrite contents_length.
    destruct (Z.eqb_spec (size s) 0) as [->|Hnz]; [reflexivity|].
    symmetry. apply Nat.eqb_neq. lia.
  - cbn [observe next fst snd is_shutdown]. auto.
Qed.

Lemma trace_simulation ops : forall s,
  reachable s -> trace s ops = map Some (model_trace (abstract s) ops).
Proof.
  induction ops as [|o ops IH]; intros s Hr; [reflexivity|].
  cbn [trace model_trace map].
  destruct (step_simulation s o (reachable_wf s Hr)) as [Ho Ha].
  rewrite Ho, IH, Ha by auto using next_reachable. reflexivity.
Qed.

(** X3.  One call, seen from outside, is one call on a bounded list.  On a
    reachable struct, whether the call waits, the value it returns and the
    condition variables it signals are those of the list model on the items
    held, and the items held afterwards are the model's: an enqueue appends
    at the back, a dequeue takes from the front, nothing else moves. *)
Theorem step_refines_model s o :
  reachable s ->
  observe (step (Some s) o) = Some (snd (model_step (abstract s) o)) /\
  abstract (next s (step (Some s) o)) = fst (model_step (abstract s) o).
Proof. intros Hr. apply step_simulation, reachable_wf, Hr. Qed.

Lemma step_refines_model_witness :
  observe (step (Some demo_two) Dequeue) =
    Some (snd (model_step (abstract demo_two) Dequeue)) /\
  abstract (next demo_two (step (Some demo_two) Dequeue)) =
    fst (model_step (abstract demo_two) Dequeue).
Proof. apply (step_refines_model demo_two Dequeue). exact demo_two_reachable. Defined.

(** X4.  Any sequence of calls on a freshly constructed queue, in any
    interleaving of enqueues, dequeues, shutdowns and queries, is observed
    exactly as the same sequence on an initially empty list bounded by the
    capacity: same waits, same values returned, same signals, call by call. *)
Theorem run_refines_model m cap s0 ops :
  int_range cap -> queue_init m cap = Some s0 ->
  trace s0 ops =
  map Some (model_trace {| m_items := []; m_capacity := cap; m_shutdown := false |}
                        ops).
Proof.
  intros Hcap Hinit.
  rewrite trace_simulation by (eapply init_reachable; eauto).
  destruct (queue_init_fresh m cap s0 Hinit) as (_ & Hc & Hsz & _ & _ & Hfl).
  unfold abstract. rewrite (contents_empty s0 Hsz), Hc, Hfl. reflexivity.
Qed.

Lemma run_refines_model_witness :
  trace demo_fresh [Enqueue 10; Dequeue; Dequeue; Shutdown; Enqueue 5; Dequeue] =
  map Some (model_trace {| m_items := []; m_capacity := 3; m_shutdown := false |}
              [Enqueue 10; Dequeue; Dequeue; Shutdown; Enqueue 5; Dequeue]).
Proof.
  apply (run_refines_model demo_alloc 3 demo_fresh);
    [unfold int_range, INT_MIN, INT_MAX; lia | reflexivity].
Defined.

(** ** What goes in comes out *)

Lemma step_conserves s o :
  wf s ->
  contents s ++ inserted s o =
  removed s o ++ contents (next s (step (Some s) o)).
Proof.
  intros Hwf. pose proof (wf_size s Hwf) as Hs.
  destruct o as [data| | | |]; unfold inserted, removed, step.
  - destruct (enqueue_cases s data Hwf)
      as [(Hf & Hfl & ->)|[(Hfl & ->)|(Hf & Hfl & ->)]];
      cbn [with_value next]; rewrite ?Hfl.
    + apply app_nil_r.
    + apply app_nil_r.
    + rewrite contents_pushed by auto. reflexivity.
  - destruct (dequeue_cases s Hwf)
      as [(Hz & Hfl & ->)|[(Hz & Hfl & ->)|(Hp & ->)]];
      cbn [with_value next].
    + apply app_nil_r.
    + rewrite Hz. apply app_nil_r.
    + destruct (Z.eqb_spec (size s) 0); [lia|].
      rewrite app_nil_r. apply contents_popped; auto.
  - unfold queue_shutdown. cbn [with_value next].
    rewrite contents_set_shutdown. apply app_nil_r.
  - apply app_nil_r.
  - apply app_nil_r.
Qed.

Lemma run_conserves ops : forall s,
  reachable s ->
  contents s ++ accepted s ops = delivered s ops ++ contents (exec s ops).
Proof.
  induction ops as [|o ops IH]; intros s Hr; cbn [accepted delivered exec].
  - apply app_nil_r.
  - rewrite app_assoc, (step_conserves s o (reachable_wf s Hr)).
    rewrite <- !app_assoc. f_equal. apply IH, next_reachable, Hr.
Qed.

(** X5.  FIFO under any interleaving.  Along any run of calls from a
    reachable struct, the items held at the start followed by the items the
    enqueues inserted, in call order, are the items the dequeues handed out,
    in call order, followed by the items still held: nothing is lost,
    duplicated, reordered or invented, however enqueues and dequeues
    alternate and however often the indices wrap. *)
Theorem items_conserved s ops :
  reachable s ->
  contents s ++ accepted s ops = delivered s ops ++ contents (exec s ops).
Proof. intros Hr. apply run_conserves, Hr. Qed.

Lemma items_conserved_witness :
  contents demo_two ++
    accepted demo_two [Dequeue; Enqueue 30; Enqueue 40; Dequeue; Enqueue 50] =
  delivered demo_two [Dequeue; Enqueue 30; Enqueue 40; Dequeue; Enqueue 50] ++
    contents (exec demo_two [Dequeue; Enqueue 30; Enqueue 40; Dequeue; Enqueue 50]).
Proof. apply (items_conserved demo_two). exact demo_two_reachable. Defined.

(** X6.  A fresh queue takes exactly [capacity] items.  On a queue just
    constructed with capacity [cap], enqueuing any [cap] items inserts every
    one of them, the queue then holds them in that order, and one more
    enqueue has to wait. *)
Theorem fresh_queue_fills m cap s0 es data :
  int_range cap -> queue_init m cap = Some s0 ->
  Z.of_nat (length es) = cap ->
  exists s1,
    enqueue_all s0 es = Some s1 /\
    contents s1 = es /\
    enqueue (Some s1) data = Blocked.
Proof.
  intros Hcap Hinit Hlen.
  pose proof (queue_init_wf m cap s0 Hcap Hinit) as Hwf.
  destruct (queue_init_fresh m cap s0 Hinit) as (_ & Hc & Hsz & _ & _ & Hfl).
  destruct (enqueue_all_total es s0 Hwf Hfl ltac:(lia)) as [s1 He].
  destruct (enqueue_all_spec es s0 s1 Hwf He) as (Hwf1 & Hc1 & Hfl1 & Hcap1).
  rewrite (contents_empty s0 Hsz) in Hc1. simpl in Hc1.
  exists s1. split; [exact He|]. split; [exact Hc1|].
  apply enqueue_full_blocks; [|congruence].
  rewrite <- (contents_size s1 Hwf1), Hc1. congruence.
Qed.

Lemma fresh_queue_fills_witness :
  exists s1,
    enqueue_all demo_fresh [10; 20; 30] = Some s1 /\
    contents s1 = [10; 20; 30] /\
    enqueue (Some s1) 40 = Blocked.
Proof.
  apply (fresh_queue_fills demo_alloc 3 demo_fresh [10; 20; 30] 40);
    [unfold int_range, INT_MIN, INT_MAX; lia | reflexivity | reflexivity].
Defined.

Lemma accepted_after_shutdown ops : forall s,
  is_shutdown_flag s = true -> accepted s ops = [].
Proof.
  induction ops as [|o ops IH]; intros s Hfl; cbn [accepted]; [reflexivity|].
  rewrite IH by (rewrite next_flag; destruct o; auto).
  rewrite app_nil_r. unfold inserted.
  destruct o; try reflexivity.
  destruct (step (Some s) (Enqueue data)); try reflexivity.
  rewrite Hfl. reflexivity.
Qed.

(** X7.  After shutdown the queue only drains.  Along any run of calls from
    a reachable struct whose shutdown flag is set, no enqueue inserts
    anything, and the items the dequeues hand out followed by the items
    still held are exactly the items held when the run started. *)
Theorem shutdown_only_drains s ops :
  reachable s -> is_shutdown_flag s = true ->
  accepted s ops = [] /\
  contents s = delivered s ops ++ contents (exec s ops).
Proof.
  intros Hr Hfl. pose proof (run_conserves ops s Hr) as H.
  rewrite (accepted_after_shutdown ops s Hfl), app_nil_r in H.
  split; [apply accepted_after_shutdown, Hfl | exact H].
Qed.

Lemma set_shutdown_demo_two_reachable : reachable (set_shutdown demo_two).
Proof.
  apply (reach_step demo_two Shutdown (set_shutdown demo_two) RUnit
                    [Broadcast not_empty; Broadcast not_full]);
    [exact demo_two_reachable | reflexivity].
Qed.

Lemma shutdown_only_drains_witness :
  accepted (set_shutdown demo_two) [Enqueue 30; Dequeue; Enqueue 40] = [] /\
  contents (set_shutdown demo_two) =
  delivered (set_shutdown demo_two) [Enqueue 30; Dequeue; Enqueue 40] ++
    contents (exec (set_shutdown demo_two) [Enqueue 30; Dequeue; Enqueue 40]).
Proof.
  apply (shutdown_only_drains (set_shutdown demo_two));
    [exact set_shutdown_demo_two_reachable | reflexivity].
Defined.

(** ** What a run never changes *)

Lemma next_frame s o :
  capacity (next s (step (Some s) o)) = capacity s /\
  length (buffer (next s (step (Some s) o))) = length (buffer s).
Proof.
  destruct o as [data| | | |]; try (split; reflexivity); unfold step.
  - unfold enqueue.
    destruct ((size s =? capacity s) && negb (is_shutdown_flag s));
      [split; reflexivity|].
    destruct (is_shutdown_flag s); [split; reflexivity|].
    destruct (in_bounds s _); [|split; reflexivity].
    cbn [with_value next capacity buffer]. split; [reflexivity|].
    unfold buffer_set. apply length_insert.
  - unfold dequeue.
    destruct ((size s =? 0) && negb (is_shutdown_flag s)); [split; reflexivity|].
    destruct (size s =? 0); [split; reflexivity|].
    destruct (in_bounds s _); split; reflexivity.
Qed.

Lemma exec_frame ops : forall s,
  capacity (exec s ops) = capacity s /\
  length (buffer (exec s ops)) = length (buffer s).
Proof.
  induction ops as [|o ops IH]; intros s; cbn [exec]; [split; reflexivity|].
  destruct (IH (next s (step (Some s) o))) as [-> ->]. apply next_frame.
Qed.

(** X8.  The capacity is fixed at construction.  Through any sequence of
    calls on a queue constructed with capacity [cap], the [capacity] field
    stays [cap] and the buffer keeps its [cap] slots. *)
Theorem capacity_fixed m cap s0 ops :
  int_range cap -> queue_init m cap = Some s0 ->
  capacity (exec s0 ops) = cap /\
  Z.of_nat (length (buffer (exec s0 ops))) = cap.
Proof.
  intros Hcap Hinit. destruct (exec_frame ops s0) as [-> ->].
  pose proof (queue_init_wf m cap s0 Hcap Hinit) as Hwf.
  destruct (queue_init_fresh m cap s0 Hinit) as (_ & Hc & _).
  split; [exact Hc|]. rewrite (wf_len s0 Hwf). exact Hc.
Qed.

Lemma capacity_fixed_witness :
  capacity (exec demo_fresh [Enqueue 10; Enqueue 20; Dequeue; Shutdown]) = 3 /\
  Z.of_nat (length (buffer (exec demo_fresh
                                 [Enqueue 10; Enqueue 20; Dequeue; Shutdown]))) = 3.
Proof.
  apply (capacity_fixed demo_alloc 3 demo_fresh);
    [unfold int_range, INT_MIN, INT_MAX; lia | reflexivity].
Defined.

(** ** Construction and signalling *)

(** X9.  [queue_init] returns NULL in exactly three cases: the capacity is
    not positive, the struct could not be allocated, or the buffer could not
    be allocated. *)
Theorem queue_init_null_iff m cap :
  queue_init m cap = None <->
  cap <= 0 \/ alloc_struct m = false \/ alloc_buffer m = None.
Proof.
  unfold queue_init. destruct (Z.leb_spec cap 0) as [Hle|Hgt].
  - split; auto.
  - destruct (alloc_struct m); simpl.
    + destruct (alloc_buffer m); split; auto; try discriminate.
      intros [?|[?|?]]; [lia | discriminate | discriminate].
    + split; auto.
Qed.

Lemma queue_init_null_iff_witness :
  queue_init {| alloc_struct := true; alloc_buffer := None |} 3 = None.
Proof.
  apply (proj2 (queue_init_null_iff {| alloc_struct := true; alloc_buffer := None |} 3)).
  right. right. reflexivity.
Defined.

(** X10.  Who gets woken.  When a call on a reachable struct returns, it
    has signalled [not_empty] exactly if it added an item ([size] grew by
    one), [not_full] exactly if it took one out ([size] shrank by one), and
    it has broadcast, on both condition variables, exactly if it was
    [queue_shutdown]. *)
Theorem signal_discipline s o s' v evs :
  reachable s -> step (Some s) o = Returned (Some s') v evs ->
  (In (Signal not_empty) evs <-> size s' = size s + 1) /\
  (In (Signal not_full) evs <-> size s' = size s - 1) /\
  (In (Broadcast not_empty) evs <-> o = Shutdown) /\
  (In (Broadcast not_full) evs <-> o = Shutdown).
Proof.
  intros Hr. pose proof (reachable_wf s Hr) as Hwf.
  destruct o as [data| | | |]; unfold step.
  - destruct (enqueue_cases s data Hwf)
      as [(_ & _ & ->)|[(_ & ->)|(_ & _ & ->)]];
      cbn [with_value]; intros [= <- <- <-]; cbn [pushed size In];
      repeat split; intros; try lia; try discriminate; try tauto;
      intuition discriminate.
  - destruct (dequeue_cases s Hwf)
      as [(_ & _ & ->)|[(_ & _ & ->)|(_ & ->)]];
      cbn [with_value]; intros [= <- <- <-]; cbn [popped size In];
      repeat split; intros; try lia; try discriminate; try tauto;
      intuition discriminate.
  - unfold queue_shutdown. cbn [with_value]. intros [= <- <- <-].
    cbn [set_shutdown size In].
    repeat split; intros; try lia; try discriminate; try tauto;
      intuition discriminate.
  - intros [= <- <- <-]. cbn [In].
    repeat split; intros; try lia; try discriminate; try tauto.
  - intros [= <- <- <-]. cbn [In].
    repeat split; intros; try lia; try discriminate; try tauto.
Qed.

Lemma signal_discipline_witness :
  (In (Signal not_empty) [Signal not_full] <-> size (popped demo_two) = size demo_two + 1) /\
  (In (Signal not_full) [Signal not_full] <-> size (popped demo_two) = size demo_two - 1) /\
  (In (Broadcast not_empty) [Signal not_full] <-> Dequeue = Shutdown) /\
  (In (Broadcast not_full) [Signal not_full] <-> Dequeue = Shutdown).
Proof.
  apply (signal_discipline demo_two Dequeue (popped demo_two) (RPtr 10));
    [exact demo_two_reachable | reflexivity].
Defined.

(** ** The indices as counters *)

Lemma step_front s o :
  wf s ->
  front (next s (step (Some s) o)) =
  (front s + Z.of_nat (length (removed s o))) mod capacity s.
Proof.
  intros Hwf. pose proof (wf_front s Hwf) as Hf.
  assert (front s = (front s + Z.of_nat 0) mod capacity s) as Hsame
      by (rewrite Nat2Z.inj_0, Z.add_0_r, Z.mod_small; lia).
  destruct o as [data| | | |]; unfold removed, step; try exact Hsame.
  - destruct (enqueue_cases s data Hwf)
      as [(_ & _ & ->)|[(_ & ->)|(_ & _ & ->)]]; exact Hsame.
  - destruct (dequeue_cases s Hwf)
      as [(_ & _ & ->)|[(Hz & _ & ->)|(Hp & ->)]]; cbn [with_value next].
    + exact Hsame.
    + rewrite Hz. exact Hsame.
    + destruct (Z.eqb_spec (size s) 0); [lia|]. reflexivity.
Qed.

Lemma run_front ops : forall s,
  reachable s ->
  front (exec s ops) =
  (front s + Z.of_nat (length (delivered s ops))) mod capacity s.
Proof.
  induction ops as [|o ops IH]; intros s Hr; cbn [exec delivered].
  - pose proof (wf_front s (reachable_wf s Hr)).
    cbn [length]. rewrite Nat2Z.inj_0, Z.add_0_r, Z.mod_small; lia.
  - pose proof (wf_cap s (reachable_wf s Hr)).
    rewrite IH by auto using next_reachable.
    rewrite (proj1 (next_frame s o)), (step_front s o (reachable_wf s Hr)).
    rewrite Z.add_mod_idemp_l by lia.
    rewrite length_app, Nat2Z.inj_add. f_equal. lia.
Qed.

(** X11.  The indices count the traffic.  After any sequence of calls on a
    freshly constructed queue, [size] is the number of items inserted minus
    the number handed out, [front] is the number handed out modulo the
    capacity, and the slot the next item goes to, [(rear + 1) mod capacity],
    is the number inserted modulo the capacity. *)
Theorem indices_count_traffic m cap s0 ops :
  int_range cap -> queue_init m cap = Some s0 ->
  size (exec s0 ops) =
    Z.of_nat (length (accepted s0 ops)) - Z.of_nat (length (delivered s0 ops)) /\
  front (exec s0 ops) = Z.of_nat (length (delivered s0 ops)) mod cap /\
  (rear (exec s0 ops) + 1) mod cap = Z.of_nat (length (accepted s0 ops)) mod cap.
Proof.
  intros Hcap Hinit.
  pose proof (init_reachable m cap s0 Hcap Hinit) as Hr.
  destruct (queue_init_fresh m cap s0 Hinit) as (Hpos & Hc & Hsz & Hf & _).
  pose proof (reachable_wf _ (exec_reachable ops s0 Hr)) as Hwf.
  pose proof (run_conserves ops s0 Hr) as Hcons.
  rewrite (contents_empty s0 Hsz) in Hcons. cbn [app] in Hcons.
  apply (f_equal (@length ptr)) in Hcons. rewrite length_app in Hcons.
  pose proof (contents_size _ Hwf) as Hlen.
  pose proof (run_front ops s0 Hr) as Hfront. rewrite Hf, Hc in Hfront.
  cbn [Z.add] in Hfront.
  assert (size (exec s0 ops) =
          Z.of_nat (length (accepted s0 ops)) -
          Z.of_nat (length (delivered s0 ops))) as Hsize by lia.
  split; [exact Hsize|]. split; [exact Hfront|].
  pose proof (wf_ring _ Hwf) as Hring.
  rewrite (proj1 (exec_frame ops s0)), Hc in Hring.
  rewrite Hring, Hfront, Hsize, Z.add_mod_idemp_l by lia.
  f_equal. lia.
Qed.

Lemma indices_count_traffic_witness :
  size (exec demo_fresh [Enqueue 10; Enqueue 20; Dequeue; Enqueue 30; Enqueue 40]) =
    Z.of_nat (length (accepted demo_fresh
                        [Enqueue 10; Enqueue 20; Dequeue; Enqueue 30; Enqueue 40])) -
    Z.of_nat (length (delivered demo_fresh
                        [Enqueue 10; Enqueue 20; Dequeue; Enqueue 30; Enqueue 40])) /\
  front (exec demo_fresh [Enqueue 10; Enqueue 20; Dequeue; Enqueue 30; Enqueue 40]) =
    Z.of_nat (length (delivered demo_fresh
                        [Enqueue 10; Enqueue 20; Dequeue; Enqueue 30; Enqueue 40]))
    mod 3 /\
  (rear (exec demo_fresh [Enqueue 10; Enqueue 20; Dequeue; Enqueue 30; Enqueue 40]) + 1)
    mod 3 =
    Z.of_nat (length (accepted demo_fresh
                        [Enqueue 10; Enqueue 20; Dequeue; Enqueue 30; Enqueue 40]))
    mod 3.
Proof.
  apply (indices_count_traffic demo_alloc 3 demo_fresh);
    [unfold int_range, INT_MIN, INT_MAX; lia | reflexivity].
Defined.

(** X12.  Uninitialised memory is never observed.  The buffer comes from
    [malloc] with arbitrary words in it; whatever they are, the same calls
    on two queues constructed with the same capacity are observed alike:
    same waits, same values returned, same signals. *)
Theorem garbage_never_observed m1 m2 cap s1 s2 ops :
  int_range cap ->
  queue_init m1 cap = Some s1 -> queue_init m2 cap = Some s2 ->
  trace s1 ops = trace s2 ops.
Proof.
  intros Hcap H1 H2.
  rewrite !trace_simulation by (eapply init_reachable; eauto).
  destruct (queue_init_fresh m1 cap s1 H1) as (_ & Hc1 & Hsz1 & _ & _ & Hfl1).
  destruct (queue_init_fresh m2 cap s2 H2) as (_ & Hc2 & Hsz2 & _ & _ & Hfl2).
  unfold abstract.
  rewrite (contents_empty s1 Hsz1), (contents_empty s2 Hsz2), Hc1, Hc2, Hfl1, Hfl2.
  reflexivity.
Qed.

Lemma garbage_never_observed_witness :
  trace demo_fresh [Enqueue 10; Dequeue; Shutdown; Dequeue] =
  trace {| buffer := [1; 2; 3]; capacity := 3; size := 0;
           front := 0; rear := -1; is_shutdown_flag := false |}
        [Enqueue 10; Dequeue; Shutdown; Dequeue].
Proof.
  apply (garbage_never_observed
           demo_alloc
           {| alloc_struct := true; alloc_buffer := Some (fun i => Z.of_nat (S i)) |}
           3);
    [unfold int_range, INT_MIN, INT_MAX; lia | reflexivity | reflexivity].
Defined.
